(** * GTIRB: the byte image (ImageByteMap) and DataObject, checked against
    their specification.

    The development embeds two translation units of the library:

    - [ImageByteMap.cpp]: accessors, the bounded [setData]/[getData]
      wrappers around the byte storage engine, and the protobuf codec;
    - [DataObject.cpp]: accessors and the protobuf codec.

    C++ member functions that mutate [this] are state transformers over a
    record of the object's fields; member functions that may [throw] live
    in a state-and-exception monad in which the state reached at the
    moment of the throw is kept, as it is for a C++ object. *)

From Stdlib Require Import ZArith Lia Bool.
From stdpp Require Import base option list gmap strings.

Local Open Scope Z_scope.

(* ===================================================================== *)
(** ** Machine integers *)

Definition two64 : Z := 2 ^ 64.

(** Reduction of an integer to the range of [uint64_t]. *)
Definition wrap64 (z : Z) : Z := z mod two64.

(** Membership in the range of [uint64_t]. *)
Definition is_u64 (z : Z) : Prop := 0 <= z < two64.

(* ===================================================================== *)
(** ** Addr *)

Module Addr.

(** Modelled from the spec: the [Addr] value type (Addr.hpp) is not
    among the sources.  The spec describes it as an opaque 64-bit
    unsigned quantity with total arithmetic and a total order; its
    value is embedded as an integer, and [+] and [-] with an unsigned
    64-bit offset reduce modulo [2^64] as the arithmetic of the
    underlying [uint64_t] does. *)
Definition t : Type := Z.

(** Modelled from the spec: [Addr{}] (Addr.hpp is missing), the
    value-initialised address. *)
Definition zero : t := 0.

(** Modelled from the spec: the constructor [Addr(uint64_t)] (Addr.hpp
    is missing); a 64-bit value is taken as it is. *)
Definition of_u64 (z : Z) : t := wrap64 z.

(** Modelled from the spec: the conversion [static_cast<uint64_t>(Addr)]
    (Addr.hpp is missing). *)
Definition to_u64 (a : t) : Z := wrap64 a.

(** Modelled from the spec: [A + Offset] for an unsigned 64-bit offset
    (Addr.hpp is missing); the sum wraps around. *)
Definition add (a : t) (off : Z) : t := wrap64 (a + off).

(** Modelled from the spec: [A - Offset] for an unsigned 64-bit offset
    (Addr.hpp is missing); the difference wraps around. *)
Definition sub (a : t) (off : Z) : t := wrap64 (a - off).

(** Modelled from the spec: [operator<] of [Addr] (Addr.hpp is
    missing), the total order of the 64-bit values. *)
Definition lt (a b : t) : bool := a <? b.

(** [<=] and [>=] are the ones that [std::rel_ops], which the functions
    of the image bring into scope, derives from [<]: [x <= y] is
    [!(y < x)] and [x >= y] is [!(x < y)]. *)
Definition le (a b : t) : bool := negb (lt b a).
Definition ge (a b : t) : bool := negb (lt a b).

End Addr.

(* ===================================================================== *)
(** ** Exceptions and the state-and-exception monad *)

(** The two failures of the error taxonomy that byte access can raise:
    [OutOfRange] is the image-level [std::out_of_range]; [RangeError] is
    what the storage engine reports. *)
Inductive exn : Type :=
| OutOfRange
| RangeError.

(** A computation over a mutable object of type [St] that returns an [A]
    or throws; the object's state after the call is returned either way. *)
Definition M (St A : Type) : Type := St -> (exn + A) * St.

Definition ret {St A} (a : A) : M St A := fun s => (inr a, s).

Definition throw {St A} (e : exn) : M St A := fun s => (inl e, s).

Definition bind {St A B} (c : M St A) (k : A -> M St B) : M St B :=
  fun s =>
    match c s with
    | (inl e, s') => (inl e, s')
    | (inr a, s') => k a s'
    end.

(** A [const] member function: it reads the object and leaves it as it
    is. *)
Definition reads {St A} (f : St -> exn + A) : M St A := fun s => (f s, s).

Declare Scope cxx_scope.
Delimit Scope cxx_scope with cxx.
Notation "c1 ;; c2" := (bind c1 (fun _ => c2))
  (at level 100, right associativity) : cxx_scope.

(** Outcome and final state of a run. *)
Definition outcome {St A} (r : (exn + A) * St) : exn + A := fst r.
Definition final {St A} (r : (exn + A) * St) : St := snd r.

(* ===================================================================== *)
(** ** Node identity *)

Module Node.

(** A UUID is the sequence of its data bytes (sixteen of them). *)
Definition UUID : Type := list Byte.byte.

(** Modelled from the spec: [nodeUUIDToBytes] (Serialization.hpp is
    missing).  By the spec a message carries the UUID as a byte field:
    the function yields the bytes of the node's UUID. *)
Definition nodeUUIDToBytes (u : UUID) : list Byte.byte := u.

(** Modelled from the spec: [setNodeUUIDFromBytes] (Serialization.hpp is
    missing).  By the spec decoding restores the UUID verbatim: the
    function yields the UUID that the node takes, made of the bytes of
    the message. *)
Definition setNodeUUIDFromBytes (bytes : list Byte.byte) : UUID := bytes.

End Node.

(* ===================================================================== *)
(** ** The byte storage engine, as an interface *)

(** [ImageByteMap] holds a [ByteMap] member and calls four of its member
    functions.  ByteMap.cpp is not among the sources, so the image is
    developed over any implementation of them: [BM] is the engine's
    state, [Wire] its protobuf message. *)
Class ByteStore (BM Wire : Type) : Type := {
  (* void ByteMap::setData(Addr, gsl::span<const std::byte>) *)
  bm_setData : Addr.t -> list Byte.byte -> M BM unit;
  (* std::vector<std::byte> ByteMap::getData(Addr, size_t) const *)
  bm_getData : Addr.t -> Z -> BM -> exn + list Byte.byte;
  (* void ByteMap::toProtobuf(MessageType* ) const *)
  bm_toProtobuf : BM -> Wire;
  (* void ByteMap::fromProtobuf(const MessageType&) *)
  bm_fromProtobuf : Wire -> BM -> BM
}.

(** An engine whose codec is lossless: decoding what was encoded, into
    any engine object, gives back the encoded state. *)
Definition lossless_codec `{ByteStore BM Wire} : Prop :=
  forall s target : BM, bm_fromProtobuf (bm_toProtobuf s) target = s.

(** [boost::endian::order]. *)
Inductive order : Type :=
| big
| little.


(* ===================================================================== *)
(** ** ImageByteMap *)

Module ImageByteMap.

(** The protobuf message of an image ([proto::ImageByteMap]), with the
    fields that the codec below reads and writes.  The message of the
    engine is nested in it. *)
Record Message (Wire : Type) : Type := mkMessage {
  uuid : list Byte.byte;
  byte_map : Wire;
  file_name : string;
  addr_min : Z;
  addr_max : Z;
  base_address : Z;
  entry_point_address : Z;
  rebase_delta : Z;
  is_relocated : bool
}.

(** The data members of the class; [UUID] is the one inherited from
    [Node]. *)
Record t (BM : Type) : Type := mk {
  UUID : Node.UUID;
  ByteMap : BM;
  FileName : string;
  BaseAddress : Addr.t;
  EntryPointAddress : Addr.t;
  EaMinMax : Addr.t * Addr.t;
  RebaseDelta : Z;
  IsRelocated : bool;
  ByteOrder : order
}.

Arguments mkMessage {Wire}.
Arguments uuid {Wire}.
Arguments byte_map {Wire}.
Arguments file_name {Wire}.
Arguments addr_min {Wire}.
Arguments addr_max {Wire}.
Arguments base_address {Wire}.
Arguments entry_point_address {Wire}.
Arguments rebase_delta {Wire}.
Arguments is_relocated {Wire}.
Arguments mk {BM}.
Arguments UUID {BM}.
Arguments ByteMap {BM}.
Arguments FileName {BM}.
Arguments BaseAddress {BM}.
Arguments EntryPointAddress {BM}.
Arguments EaMinMax {BM}.
Arguments RebaseDelta {BM}.
Arguments IsRelocated {BM}.
Arguments ByteOrder {BM}.

Section WithEngine.

Context {BM Wire : Type} `{Engine : ByteStore BM Wire}.

(** Assignment to [this->ByteMap] and to [this->EaMinMax]. *)
Definition with_ByteMap (bm : BM) (img : t BM) : t BM :=
  mk (UUID img) bm (FileName img) (BaseAddress img)
     (EntryPointAddress img) (EaMinMax img) (RebaseDelta img)
     (IsRelocated img) (ByteOrder img).

Definition with_EaMinMax (r : Addr.t * Addr.t) (img : t BM) : t BM :=
  mk (UUID img) (ByteMap img) (FileName img) (BaseAddress img)
     (EntryPointAddress img) r (RebaseDelta img)
     (IsRelocated img) (ByteOrder img).

(** A call of a mutating member function of [this->ByteMap]. *)
Definition on_ByteMap {A} (c : M BM A) : M (t BM) A :=
  fun img =>
    let '(r, bm) := c (ByteMap img) in (r, with_ByteMap bm img).

(** [bool ImageByteMap::setAddrMinMax(std::pair<Addr, Addr> X)] *)
Definition setAddrMinMax (X : Addr.t * Addr.t) (img : t BM) : bool * t BM :=
  if Addr.le (fst X) (snd X)
  then (true, with_EaMinMax X img)
  else (false, with_EaMinMax (Addr.zero, Addr.zero) img).

(** [std::pair<Addr, Addr> ImageByteMap::getAddrMinMax() const] *)
Definition getAddrMinMax (img : t BM) : Addr.t * Addr.t := EaMinMax img.

(** The condition of the two range checks: the first address against the
    lower bound, and the address [A + N - 1], computed in [Addr]
    arithmetic, against the upper bound. *)
Definition in_bounds (img : t BM) (A : Addr.t) (N : Z) : bool :=
  Addr.ge A (fst (EaMinMax img))
  && Addr.le (Addr.sub (Addr.add A N) 1) (snd (EaMinMax img)).

(** [void ImageByteMap::setData(Addr Ea, gsl::span<const std::byte> Data)];
    [Data.size_bytes()] is the number of bytes of the span. *)
Definition setData (Ea : Addr.t) (Data : list Byte.byte) : M (t BM) unit :=
  fun img =>
    if in_bounds img Ea (Z.of_nat (length Data))
    then on_ByteMap (bm_setData Ea Data) img
    else throw OutOfRange img.

(** The loop of the fill overload: [n] iterations are left and [I] is the
    loop counter; each one writes a span of the one byte [Value] at
    [Ea + I]. *)
Fixpoint fill_loop (n : nat) (I : Z) (Ea : Addr.t) (Value : Byte.byte)
  : M (t BM) unit :=
  match n with
  | O => ret tt
  | S n' =>
      (on_ByteMap (bm_setData (Addr.add Ea I) [Value]) ;;
       fill_loop n' (I + 1) Ea Value)%cxx
  end.

(** [void ImageByteMap::setData(Addr Ea, size_t Bytes, std::byte Value)];
    the loop runs for [I = 0 .. Bytes - 1]. *)
Definition setData_fill (Ea : Addr.t) (Bytes : Z) (Value : Byte.byte)
  : M (t BM) unit :=
  fill_loop (Z.to_nat Bytes) 0 Ea Value.

(** [std::vector<std::byte> ImageByteMap::getData(Addr X, size_t Bytes) const] *)
Definition getData (X : Addr.t) (Bytes : Z) : M (t BM) (list Byte.byte) :=
  reads (fun img =>
           if in_bounds img X Bytes
           then bm_getData X Bytes (ByteMap img)
           else inl OutOfRange).

(** [void ImageByteMap::toProtobuf(MessageType* Message) const] *)
Definition toProtobuf (img : t BM) : Message Wire :=
  {| uuid := Node.nodeUUIDToBytes (UUID img);
     byte_map := bm_toProtobuf (ByteMap img);
     file_name := FileName img;
     addr_min := Addr.to_u64 (fst (EaMinMax img));
     addr_max := Addr.to_u64 (snd (EaMinMax img));
     base_address := Addr.to_u64 (BaseAddress img);
     entry_point_address := Addr.to_u64 (EntryPointAddress img);
     rebase_delta := RebaseDelta img;
     is_relocated := IsRelocated img |}.

(** [void ImageByteMap::fromProtobuf(const MessageType& Message)], run on
    the object [img]; [ByteOrder] is not assigned. *)
Definition fromProtobuf (Msg : Message Wire) (img : t BM) : t BM :=
  {| UUID := Node.setNodeUUIDFromBytes (uuid Msg);
     ByteMap := bm_fromProtobuf (byte_map Msg) (ByteMap img);
     FileName := file_name Msg;
     EaMinMax := (Addr.of_u64 (addr_min Msg), Addr.of_u64 (addr_max Msg));
     BaseAddress := Addr.of_u64 (base_address Msg);
     EntryPointAddress := Addr.of_u64 (entry_point_address Msg);
     RebaseDelta := rebase_delta Msg;
     IsRelocated := is_relocated Msg;
     ByteOrder := ByteOrder img |}.

(** The remaining accessors of the class.  Each setter assigns the one
    member it names. *)

(** [void ImageByteMap::setFileName(std::string X)] *)
Definition setFileName (X : string) (img : t BM) : t BM :=
  mk (UUID img) (ByteMap img) X (BaseAddress img)
     (EntryPointAddress img) (EaMinMax img) (RebaseDelta img)
     (IsRelocated img) (ByteOrder img).

(** [std::string ImageByteMap::getFileName() const] *)
Definition getFileName (img : t BM) : string := FileName img.

(** [void ImageByteMap::setBaseAddress(Addr X)] *)
Definition setBaseAddress (X : Addr.t) (img : t BM) : t BM :=
  mk (UUID img) (ByteMap img) (FileName img) X
     (EntryPointAddress img) (EaMinMax img) (RebaseDelta img)
     (IsRelocated img) (ByteOrder img).

(** [Addr ImageByteMap::getBaseAddress() const] *)
Definition getBaseAddress (img : t BM) : Addr.t := BaseAddress img.

(** [void ImageByteMap::setEntryPointAddress(Addr X)] *)
Definition setEntryPointAddress (X : Addr.t) (img : t BM) : t BM :=
  mk (UUID img) (ByteMap img) (FileName img) (BaseAddress img)
     X (EaMinMax img) (RebaseDelta img)
     (IsRelocated img) (ByteOrder img).

(** [Addr ImageByteMap::getEntryPointAddress() const] *)
Definition getEntryPointAddress (img : t BM) : Addr.t :=
  EntryPointAddress img.

(** [void ImageByteMap::setRebaseDelta(int64_t X)] *)
Definition setRebaseDelta (X : Z) (img : t BM) : t BM :=
  mk (UUID img) (ByteMap img) (FileName img) (BaseAddress img)
     (EntryPointAddress img) (EaMinMax img) X
     (IsRelocated img) (ByteOrder img).

(** [int64_t ImageByteMap::getRebaseDelta() const] *)
Definition getRebaseDelta (img : t BM) : Z := RebaseDelta img.

(** [void ImageByteMap::setIsRelocated()]: the flag is set; the function
    takes no argument. *)
Definition setIsRelocated (img : t BM) : t BM :=
  mk (UUID img) (ByteMap img) (FileName img) (BaseAddress img)
     (EntryPointAddress img) (EaMinMax img) (RebaseDelta img)
     true (ByteOrder img).

(** [bool ImageByteMap::getIsRelocated() const] *)
Definition getIsRelocated (img : t BM) : bool := IsRelocated img.

(** [boost::endian::order ImageByteMap::getByteOrder() const] *)
Definition getByteOrder (img : t BM) : order := ByteOrder img.

(** [void ImageByteMap::setByteOrder(boost::endian::order Value)] *)
Definition setByteOrder (Value : order) (img : t BM) : t BM :=
  mk (UUID img) (ByteMap img) (FileName img) (BaseAddress img)
     (EntryPointAddress img) (EaMinMax img) (RebaseDelta img)
     (IsRelocated img) Value.

End WithEngine.

End ImageByteMap.


(* ===================================================================== *)
(** ** DataObject *)

Module DataObject.

(** The protobuf message of a data object ([proto::DataObject]). *)
Record Message : Type := mkMessage {
  uuid : list Byte.byte;
  address : Z;
  size : Z
}.

(** The data members of the class; [UUID] is the one inherited from
    [Node].  [Address] has the address type (spelled [EA] in this file)
    and [Size] is a [uint64_t]. *)
Record t : Type := mk {
  UUID : Node.UUID;
  Address : Addr.t;
  Size : Z
}.

(** [EA DataObject::getAddress() const] *)
Definition getAddress (d : t) : Addr.t := Address d.

(** [uint64_t DataObject::getSize() const] *)
Definition getSize (d : t) : Z := Size d.

(** [void DataObject::toProtobuf(MessageType* Message) const]; the
    address is converted to the [uint64_t] that [set_address] takes. *)
Definition toProtobuf (d : t) : Message :=
  {| uuid := Node.nodeUUIDToBytes (UUID d);
     address := Addr.to_u64 (Address d);
     size := Size d |}.

(** [void DataObject::fromProtobuf(const MessageType& Message)], run on
    the object [d]: every member is assigned from the message. *)
Definition fromProtobuf (Msg : Message) (d : t) : t :=
  {| UUID := Node.setNodeUUIDFromBytes (uuid Msg);
     Address := Addr.of_u64 (address Msg);
     Size := size Msg |}.

End DataObject.

(* ===================================================================== *)
(** ** A byte storage engine *)

Module ByteMap.

(** Modelled from the spec: the state of the engine (ByteMap.cpp and
    ByteMap.hpp are missing).  By the spec the engine is an unbounded,
    sparse store that enforces no bounds; here it is a finite map from
    addresses to bytes, and its message is the list of the stored
    (address, byte) pairs. *)
Abbreviation store := (gmap Z Byte.byte).
Abbreviation Message := (list (Z * Byte.byte)).

(** Modelled from the spec: the write of a contiguous run (ByteMap.cpp
    is missing); every byte of the run replaces what its address held,
    so that the last write to an address wins. *)
Fixpoint write_run (a : Addr.t) (bs : list Byte.byte) (m : store) : store :=
  match bs with
  | [] => m
  | b :: bs' => write_run (Addr.add a 1) bs' (<[a := b]> m)
  end.

(** Modelled from the spec: the read of [n] consecutive bytes
    (ByteMap.cpp is missing); there is no answer if one of them was
    never written. *)
Fixpoint read_run (a : Addr.t) (n : nat) (m : store)
  : option (list Byte.byte) :=
  match n with
  | O => Some []
  | S n' =>
      match m !! a, read_run (Addr.add a 1) n' m with
      | Some b, Some bs => Some (b :: bs)
      | _, _ => None
      end
  end.

(** Modelled from the spec: [ByteMap::setData] (ByteMap.cpp is missing);
    it writes the run and does not fail. *)
Definition setData (Ea : Addr.t) (Data : list Byte.byte) : M store unit :=
  fun m => (inr tt, write_run Ea Data m).

(** Modelled from the spec: [ByteMap::getData] (ByteMap.cpp is missing);
    it fails with [RangeError] if any byte asked for was never written,
    without zero-fill. *)
Definition getData (Ea : Addr.t) (Bytes : Z) (m : store)
  : exn + list Byte.byte :=
  match read_run Ea (Z.to_nat Bytes) m with
  | Some bs => inr bs
  | None => inl RangeError
  end.

(** Modelled from the spec: [ByteMap::toProtobuf] (ByteMap.cpp is
    missing); the message lists what is stored. *)
Definition toProtobuf (m : store) : Message := map_to_list m.

(** Modelled from the spec: [ByteMap::fromProtobuf] (ByteMap.cpp is
    missing); the store is replaced by what the message lists. *)
Definition fromProtobuf (Msg : Message) (_ : store) : store :=
  list_to_map Msg.

#[global] Instance engine : ByteStore store Message := {
  bm_setData := setData;
  bm_getData := getData;
  bm_toProtobuf := toProtobuf;
  bm_fromProtobuf := fromProtobuf
}.

End ByteMap.

(* ===================================================================== *)
(** ** Notions used by the statements *)

(** Containment of the run of [N] bytes at [A] in the image's range, as
    the specification words it: over the integers, every address from
    [A] to [A + N - 1] lies in [[min, max]]. *)
Definition spec_contained {BM} (img : ImageByteMap.t BM) (A N : Z) : Prop :=
  fst (ImageByteMap.EaMinMax img) <= A
  /\ A + N - 1 <= snd (ImageByteMap.EaMinMax img).

(** The range invariant of the specification. *)
Definition range_ordered {BM} (img : ImageByteMap.t BM) : Prop :=
  fst (ImageByteMap.EaMinMax img) <= snd (ImageByteMap.EaMinMax img).

(** The address members of an image hold 64-bit values. *)
Definition image_wf {BM} (img : ImageByteMap.t BM) : Prop :=
  is_u64 (fst (ImageByteMap.EaMinMax img))
  /\ is_u64 (snd (ImageByteMap.EaMinMax img))
  /\ is_u64 (ImageByteMap.BaseAddress img)
  /\ is_u64 (ImageByteMap.EntryPointAddress img).

(** Two images agree on every member but the storage engine. *)
Definition same_but_ByteMap {BM} (a b : ImageByteMap.t BM) : Prop :=
  ImageByteMap.UUID a = ImageByteMap.UUID b
  /\ ImageByteMap.FileName a = ImageByteMap.FileName b
  /\ ImageByteMap.BaseAddress a = ImageByteMap.BaseAddress b
  /\ ImageByteMap.EntryPointAddress a = ImageByteMap.EntryPointAddress b
  /\ ImageByteMap.EaMinMax a = ImageByteMap.EaMinMax b
  /\ ImageByteMap.RebaseDelta a = ImageByteMap.RebaseDelta b
  /\ ImageByteMap.IsRelocated a = ImageByteMap.IsRelocated b
  /\ ImageByteMap.ByteOrder a = ImageByteMap.ByteOrder b.

(** Two images agree on every member but the byte order. *)
Definition same_but_ByteOrder {BM} (a b : ImageByteMap.t BM) : Prop :=
  ImageByteMap.UUID a = ImageByteMap.UUID b
  /\ ImageByteMap.ByteMap a = ImageByteMap.ByteMap b
  /\ ImageByteMap.FileName a = ImageByteMap.FileName b
  /\ ImageByteMap.BaseAddress a = ImageByteMap.BaseAddress b
  /\ ImageByteMap.EntryPointAddress a = ImageByteMap.EntryPointAddress b
  /\ ImageByteMap.EaMinMax a = ImageByteMap.EaMinMax b
  /\ ImageByteMap.RebaseDelta a = ImageByteMap.RebaseDelta b
  /\ ImageByteMap.IsRelocated a = ImageByteMap.IsRelocated b.

(** The address fields of an image message hold 64-bit values. *)
Definition message_wf {Wire} (Msg : ImageByteMap.Message Wire) : Prop :=
  is_u64 (ImageByteMap.addr_min Msg)
  /\ is_u64 (ImageByteMap.addr_max Msg)
  /\ is_u64 (ImageByteMap.base_address Msg)
  /\ is_u64 (ImageByteMap.entry_point_address Msg).

(** An engine whose writes do not throw. *)
Definition engine_total `{ByteStore BM Wire} : Prop :=
  forall (a : Addr.t) (d : list Byte.byte) (bm : BM),
    outcome (bm_setData a d bm) = inr tt.

(** An engine that writes a run byte by byte: the empty run changes
    nothing, and a run is its first byte followed by the rest of it at
    the next address. *)
Definition engine_bytewise `{ByteStore BM Wire} : Prop :=
  (forall (a : Addr.t) (bm : BM), bm_setData a [] bm = (inr tt, bm))
  /\ (forall (a : Addr.t) (b : Byte.byte) (bs : list Byte.byte) (bm : BM),
        bm_setData a (b :: bs) bm
        = (bm_setData a [b] ;; bm_setData (Addr.add a 1) bs)%cxx bm).

(** An engine that reads back the run [Data] it has just written at
    [Ea], from the state [bm]. *)
Definition engine_reads_back `{ByteStore BM Wire}
  (Ea : Addr.t) (Data : list Byte.byte) (bm : BM) : Prop :=
  outcome (bm_setData Ea Data bm) = inr tt ->
  bm_getData Ea (Z.of_nat (length Data)) (final (bm_setData Ea Data bm))
  = inr Data.

(** The setters of the attributes of an image, the range apart. *)
Definition attribute_setter {BM}
  (s : ImageByteMap.t BM -> ImageByteMap.t BM) : Prop :=
  (exists X, s = ImageByteMap.setFileName X)
  \/ (exists X, s = ImageByteMap.setBaseAddress X)
  \/ (exists X, s = ImageByteMap.setEntryPointAddress X)
  \/ (exists X, s = ImageByteMap.setRebaseDelta X)
  \/ s = ImageByteMap.setIsRelocated
  \/ (exists Value, s = ImageByteMap.setByteOrder Value).

(* ===================================================================== *)
(** ** Sample objects *)

Definition sample_uuid : Node.UUID :=
  [Byte.x00; Byte.x11; Byte.x22; Byte.x33; Byte.x44; Byte.x55; Byte.x66;
   Byte.x77; Byte.x88; Byte.x99; Byte.xaa; Byte.xbb; Byte.xcc; Byte.xdd;
   Byte.xee; Byte.xff].

(** The last address of the address space. *)
Definition top_addr : Addr.t := two64 - 1.

(** An image over the engine of [ByteMap] with range [[lo, hi]], an empty
    store and the given byte order. *)
Definition sample_image (lo hi : Addr.t) (o : order)
  : ImageByteMap.t (gmap Z Byte.byte) :=
  ImageByteMap.mk sample_uuid ∅ "a.out" 4096 4200 (lo, hi) 0 false o.

(** The image of the boundary example of the specification. *)
Definition image_100_200 := sample_image 100 200 little.

Definition image_10_20 := sample_image 10 20 little.

(** [image_10_20] whose store already holds a byte at the last address
    and one at address [0]. *)
Definition image_10_20_stray : ImageByteMap.t (gmap Z Byte.byte) :=
  ImageByteMap.with_ByteMap
    (<[top_addr := Byte.x01]> (<[0 := Byte.x02]> ∅)) image_10_20.

(** A message whose lower bound is above its upper bound. *)
Definition inverted_message : ImageByteMap.Message (list (Z * Byte.byte)) :=
  ImageByteMap.mkMessage sample_uuid [] "a.out" 5 3 4096 4200 0 false.

Definition sample_data_object : DataObject.t :=
  DataObject.mk sample_uuid 4096 16.

Definition blank_data_object : DataObject.t := DataObject.mk [] 0 0.

(** Closing a goal about a run on a sample object by evaluating it. *)
Ltac by_evaluation :=
  cbv zeta; repeat split; vm_compute;
  solve [ reflexivity
        | intros Hcmp; discriminate Hcmp
        | intros [Hlo Hhi];
          first [apply Hlo; reflexivity | apply Hhi; reflexivity] ].

(* ===================================================================== *)
(** * Properties *)

(** ** The sample engine *)

(** The codec of the sample engine is lossless. *)
Lemma ByteMap_codec_lossless : lossless_codec (BM := gmap Z Byte.byte).
Proof.
  intros s target. cbn. unfold ByteMap.fromProtobuf, ByteMap.toProtobuf.
  apply list_to_map_to_list.
Qed.

(** ** Address arithmetic *)

Lemma wrap64_small (z : Z) : is_u64 z -> wrap64 z = z.
Proof. unfold is_u64, wrap64. intros Hz. apply Z.mod_small. exact Hz. Qed.

Lemma wrap64_range (z : Z) : is_u64 (wrap64 z).
Proof.
  unfold is_u64, wrap64. apply Z.mod_pos_bound. unfold two64. lia.
Qed.

(** The end of a run is computed in two steps, each reduced modulo
    [2^64]; together they are the reduction of [A + N - 1]. *)
Lemma run_end_wrap (A N : Z) :
  Addr.sub (Addr.add A N) 1 = wrap64 (A + N - 1).
Proof.
  unfold Addr.sub, Addr.add, wrap64. apply Zminus_mod_idemp_l.
Qed.

Lemma addr_le_iff (a b : Addr.t) : Addr.le a b = true <-> a <= b.
Proof.
  unfold Addr.le, Addr.lt. rewrite negb_true_iff. apply Z.ltb_ge.
Qed.

Lemma addr_ge_iff (a b : Addr.t) : Addr.ge a b = true <-> b <= a.
Proof.
  unfold Addr.ge, Addr.lt. rewrite negb_true_iff. apply Z.ltb_ge.
Qed.

Lemma of_to_u64 (a : Addr.t) : is_u64 a -> Addr.of_u64 (Addr.to_u64 a) = a.
Proof.
  intros Ha. unfold Addr.of_u64, Addr.to_u64.
  rewrite (wrap64_small a Ha). apply wrap64_small, Ha.
Qed.

(** ** The range check *)

Section RangeCheck.

Context {BM Wire : Type} `{Engine : ByteStore BM Wire}.
Implicit Types (img : ImageByteMap.t BM) (A N : Z).

(** What the check of the code decides. *)
Lemma in_bounds_iff img A N :
  ImageByteMap.in_bounds img A N = true <->
  fst (ImageByteMap.EaMinMax img) <= A
  /\ wrap64 (A + N - 1) <= snd (ImageByteMap.EaMinMax img).
Proof.
  unfold ImageByteMap.in_bounds.
  rewrite andb_true_iff, addr_ge_iff, addr_le_iff, run_end_wrap.
  reflexivity.
Qed.

(** Where the end of the run is an address (it does not pass [2^64] and
    the run is not empty at address [0]), the check decides containment
    as the specification words it. *)
Lemma in_bounds_contained img A N :
  is_u64 (A + N - 1) ->
  ImageByteMap.in_bounds img A N = true <-> spec_contained img A N.
Proof.
  intros Hend. rewrite in_bounds_iff, (wrap64_small _ Hend).
  reflexivity.
Qed.

Lemma setData_rejected img Ea Data :
  ImageByteMap.in_bounds img Ea (Z.of_nat (length Data)) = false ->
  ImageByteMap.setData Ea Data img = (inl OutOfRange, img).
Proof.
  intros Hchk. unfold ImageByteMap.setData. rewrite Hchk. reflexivity.
Qed.

Lemma setData_delegated img Ea Data :
  ImageByteMap.in_bounds img Ea (Z.of_nat (length Data)) = true ->
  ImageByteMap.setData Ea Data img
  = ImageByteMap.on_ByteMap (bm_setData Ea Data) img.
Proof.
  intros Hchk. unfold ImageByteMap.setData. rewrite Hchk. reflexivity.
Qed.

Lemma getData_rejected img X Bytes :
  ImageByteMap.in_bounds img X Bytes = false ->
  ImageByteMap.getData X Bytes img = (inl OutOfRange, img).
Proof.
  intros Hchk. unfold ImageByteMap.getData, reads. rewrite Hchk.
  reflexivity.
Qed.

Lemma getData_delegated img X Bytes :
  ImageByteMap.in_bounds img X Bytes = true ->
  ImageByteMap.getData X Bytes img
  = (bm_getData X Bytes (ImageByteMap.ByteMap img), img).
Proof.
  intros Hchk. unfold ImageByteMap.getData, reads. rewrite Hchk.
  reflexivity.
Qed.

(** Away from the top of the address space both bounded operations do
    what the specification asks of them: a run that is not contained is
    rejected with the image, engine included, left as it was, and a
    contained run goes to the engine in one call. *)
Lemma setData_checked_below_top img Ea Data :
  is_u64 (Ea + Z.of_nat (length Data) - 1) ->
  (~ spec_contained img Ea (Z.of_nat (length Data)) ->
   ImageByteMap.setData Ea Data img = (inl OutOfRange, img))
  /\ (spec_contained img Ea (Z.of_nat (length Data)) ->
      ImageByteMap.setData Ea Data img
      = ImageByteMap.on_ByteMap (bm_setData Ea Data) img).
Proof.
  intros Hend.
  pose proof (in_bounds_contained img Ea _ Hend) as Hiff.
  split; intros Hc.
  - apply setData_rejected. apply not_true_is_false. tauto.
  - apply setData_delegated. tauto.
Qed.

Lemma getData_checked_below_top img X Bytes :
  is_u64 (X + Bytes - 1) ->
  (~ spec_contained img X Bytes ->
   ImageByteMap.getData X Bytes img = (inl OutOfRange, img))
  /\ (spec_contained img X Bytes ->
      ImageByteMap.getData X Bytes img
      = (bm_getData X Bytes (ImageByteMap.ByteMap img), img)).
Proof.
  intros Hend.
  pose proof (in_bounds_contained img X _ Hend) as Hiff.
  split; intros Hc.
  - apply getData_rejected. apply not_true_is_false. tauto.
  - apply getData_delegated. tauto.
Qed.

End RangeCheck.

(** ** Frame of the byte accesses *)

Section Frame.

Context {BM Wire : Type} `{Engine : ByteStore BM Wire}.
Implicit Types (img : ImageByteMap.t BM).

Lemma same_but_ByteMap_refl img : same_but_ByteMap img img.
Proof. repeat split. Qed.

Lemma same_but_ByteMap_trans img1 img2 img3 :
  same_but_ByteMap img1 img2 -> same_but_ByteMap img2 img3 ->
  same_but_ByteMap img1 img3.
Proof.
  unfold same_but_ByteMap.
  intros (?&?&?&?&?&?&?&?) (?&?&?&?&?&?&?&?).
  repeat split; congruence.
Qed.

Lemma on_ByteMap_frame {A} (c : M BM A) img :
  same_but_ByteMap img (final (ImageByteMap.on_ByteMap c img)).
Proof.
  unfold ImageByteMap.on_ByteMap.
  destruct (c (ImageByteMap.ByteMap img)) as [r bm]. repeat split.
Qed.

Lemma fill_loop_frame (Ea : Addr.t) (Value : Byte.byte) (n : nat) :
  forall (I : Z) img,
    same_but_ByteMap img (final (ImageByteMap.fill_loop n I Ea Value img)).
Proof.
  induction n as [|n IH]; intros I img; cbn [ImageByteMap.fill_loop].
  - apply same_but_ByteMap_refl.
  - unfold bind.
    pose proof (on_ByteMap_frame
                  (bm_setData (Addr.add Ea I) [Value]) img) as Hstep.
    destruct (ImageByteMap.on_ByteMap
                (bm_setData (Addr.add Ea I) [Value]) img) as [[e|[]] img'].
    + exact Hstep.
    + eapply same_but_ByteMap_trans; [exact Hstep|apply IH].
Qed.

(** The fill overload never reads the range: run on an image with any
    other range it has the same outcome and leaves the same engine. *)
Lemma fill_loop_range_blind (Ea : Addr.t) (Value : Byte.byte)
  (r : Addr.t * Addr.t) (n : nat) :
  forall (I : Z) img,
    ImageByteMap.fill_loop n I Ea Value (ImageByteMap.with_EaMinMax r img)
    = (outcome (ImageByteMap.fill_loop n I Ea Value img),
       ImageByteMap.with_EaMinMax r
         (final (ImageByteMap.fill_loop n I Ea Value img))).
Proof.
  induction n as [|n IH]; intros I img; cbn [ImageByteMap.fill_loop].
  - reflexivity.
  - unfold bind, ImageByteMap.on_ByteMap. cbn [ImageByteMap.ByteMap
      ImageByteMap.with_EaMinMax].
    destruct (bm_setData (Addr.add Ea I) [Value] (ImageByteMap.ByteMap img))
      as [[e|[]] bm].
    + reflexivity.
    + apply (IH (I + 1) (ImageByteMap.with_ByteMap bm img)).
Qed.

(** C9. A call of either [setData] overload, or of [getData], changes at
    most the storage engine of the image: the UUID, file name, base
    address, entry-point address, range, rebase delta, relocated flag and
    byte order after the call are those before it, whether the call
    returns or throws; [getData] leaves the whole image as it was. *)
Theorem byte_access_frame img :
  (forall Ea Data,
      same_but_ByteMap img (final (ImageByteMap.setData Ea Data img)))
  /\ (forall Ea Bytes Value,
         same_but_ByteMap img
           (final (ImageByteMap.setData_fill Ea Bytes Value img)))
  /\ (forall X Bytes, final (ImageByteMap.getData X Bytes img) = img).
Proof.
  split; [|split].
  - intros Ea Data. unfold ImageByteMap.setData.
    destruct (ImageByteMap.in_bounds img Ea (Z.of_nat (length Data))).
    + apply on_ByteMap_frame.
    + apply same_but_ByteMap_refl.
  - intros Ea Bytes Value. apply fill_loop_frame.
  - intros X Bytes. reflexivity.
Qed.

(** C8. [setAddrMinMax X] stores [X] as it is and returns [true] when
    [X.first <= X.second]; otherwise it returns [false] and the stored
    range becomes [(Addr(0), Addr(0))], whatever range was stored
    before.  No other member changes in either case. *)
Theorem setAddrMinMax_stores_or_resets (X : Addr.t * Addr.t) img :
  (fst X <= snd X ->
   ImageByteMap.setAddrMinMax X img
   = (true, ImageByteMap.with_EaMinMax X img)
   /\ ImageByteMap.getAddrMinMax (snd (ImageByteMap.setAddrMinMax X img))
      = X)
  /\ (snd X < fst X ->
      ImageByteMap.setAddrMinMax X img
      = (false, ImageByteMap.with_EaMinMax (Addr.zero, Addr.zero) img)
      /\ ImageByteMap.getAddrMinMax (snd (ImageByteMap.setAddrMinMax X img))
         = (0, 0)).
Proof.
  unfold ImageByteMap.setAddrMinMax.
  split; intros HX.
  - apply addr_le_iff in HX. rewrite HX. split; reflexivity.
  - assert (Addr.le (fst X) (snd X) = false) as ->.
    { apply not_true_is_false. rewrite addr_le_iff. lia. }
    split; reflexivity.
Qed.

(** The setter establishes the range invariant. *)
Lemma setAddrMinMax_ordered (X : Addr.t * Addr.t) img :
  range_ordered (snd (ImageByteMap.setAddrMinMax X img)).
Proof.
  unfold ImageByteMap.setAddrMinMax, range_ordered.
  destruct (Addr.le (fst X) (snd X)) eqn:HX; cbn.
  - apply addr_le_iff, HX.
  - reflexivity.
Qed.

End Frame.

(** Witness of C8 on the boundary image: [(100, 300)] is stored, and the
    inverted pair [(7, 3)] resets the range [[100, 200]] to [(0, 0)]. *)
Lemma setAddrMinMax_stores_or_resets_witness :
  ImageByteMap.setAddrMinMax (100, 300) image_100_200
  = (true, ImageByteMap.with_EaMinMax (100, 300) image_100_200)
  /\ ImageByteMap.getAddrMinMax
       (snd (ImageByteMap.setAddrMinMax (7, 3) image_100_200)) = (0, 0).
Proof.
  split.
  - apply (setAddrMinMax_stores_or_resets (100, 300) image_100_200).
    cbn. lia.
  - apply (setAddrMinMax_stores_or_resets (7, 3) image_100_200).
    cbn. lia.
Defined.

(** ** The protobuf codecs *)

Section Codec.

Context {BM Wire : Type} `{Engine : ByteStore BM Wire}.
Implicit Types (x target : ImageByteMap.t BM).

(** C2, as the code has it.  Decoding the encoding of an image [x] into
    any image object restores the UUID, file name, range, base address,
    entry-point address, rebase delta and relocated flag of [x], and,
    over an engine with a lossless codec, its byte map.  The byte order
    is not on the wire: the decoded object keeps the byte order it had
    before decoding, not that of [x]. *)
Theorem image_roundtrip_but_byte_order x target :
  lossless_codec (BM := BM) ->
  image_wf x ->
  let y := ImageByteMap.fromProtobuf (ImageByteMap.toProtobuf x) target in
  ImageByteMap.UUID y = ImageByteMap.UUID x
  /\ ImageByteMap.FileName y = ImageByteMap.FileName x
  /\ ImageByteMap.EaMinMax y = ImageByteMap.EaMinMax x
  /\ ImageByteMap.BaseAddress y = ImageByteMap.BaseAddress x
  /\ ImageByteMap.EntryPointAddress y = ImageByteMap.EntryPointAddress x
  /\ ImageByteMap.RebaseDelta y = ImageByteMap.RebaseDelta x
  /\ ImageByteMap.IsRelocated y = ImageByteMap.IsRelocated x
  /\ ImageByteMap.ByteMap y = ImageByteMap.ByteMap x
  /\ ImageByteMap.ByteOrder y = ImageByteMap.ByteOrder target.
Proof.
  intros Hcodec (Hlo & Hhi & Hbase & Hentry) y. subst y.
  destruct x as [u bm f b e [lo hi] d r o]. cbn in *.
  rewrite !of_to_u64 by assumption.
  rewrite Hcodec.
  repeat split.
Qed.

End Codec.

(** Witness of C2 (amended): a big-endian image over the engine of
    [ByteMap], holding one written byte, decoded into a little-endian
    object. *)
Lemma image_roundtrip_but_byte_order_witness :
  let x := final (ImageByteMap.setData 150 [Byte.x7f]
                    (sample_image 100 200 big)) in
  let y := ImageByteMap.fromProtobuf (ImageByteMap.toProtobuf x)
             image_10_20 in
  ImageByteMap.EaMinMax y = (100, 200)
  /\ ImageByteMap.ByteMap y = ImageByteMap.ByteMap x
  /\ ImageByteMap.ByteOrder y = little.
Proof.
  intros x y.
  assert (Hwf : image_wf x).
  { subst x. unfold image_wf, is_u64. vm_compute.
    repeat split; intros Hcmp; discriminate Hcmp. }
  pose proof (image_roundtrip_but_byte_order x image_10_20
                ByteMap_codec_lossless Hwf) as H.
  cbv zeta in H.
  destruct H as (_ & _ & Hrange & _ & _ & _ & _ & Hbm & Hord).
  split; [exact Hrange|]. split; [exact Hbm|exact Hord].
Defined.

(** C2, counterexample.  Two images that differ in their byte order
    only have the same encoding, so the byte order of an image cannot be
    read back from its message: a big-endian image decoded into a
    little-endian object comes back little-endian, and a little-endian
    one decoded into a big-endian object comes back big-endian. *)
Lemma image_roundtrip_loses_byte_order :
  let x := sample_image 100 200 big in
  let x' := sample_image 100 200 little in
  image_wf x
  /\ ImageByteMap.toProtobuf x = ImageByteMap.toProtobuf x'
  /\ ImageByteMap.ByteOrder
       (ImageByteMap.fromProtobuf (ImageByteMap.toProtobuf x)
          (sample_image 0 0 little))
     <> ImageByteMap.ByteOrder x
  /\ ImageByteMap.ByteOrder
       (ImageByteMap.fromProtobuf (ImageByteMap.toProtobuf x')
          (sample_image 0 0 big))
     <> ImageByteMap.ByteOrder x'.
Proof.
  cbv zeta. split.
  - unfold image_wf, is_u64, two64. cbn. lia.
  - split; [reflexivity|]. split; cbn; discriminate.
Qed.

(** C4, at the failing input.  [fromProtobuf] copies the two bounds of
    the message without comparing them: decoding a message with
    [addr_min = 5] and [addr_max = 3] leaves the image with the range
    [(5, 3)], which breaks [min <= max]; the setter, given the same
    pair, refuses it and stores [(0, 0)]. *)
Theorem fromProtobuf_range_unchecked :
  let img := ImageByteMap.fromProtobuf inverted_message image_100_200 in
  range_ordered image_100_200
  /\ ImageByteMap.EaMinMax img = (5, 3)
  /\ ~ range_ordered img
  /\ ImageByteMap.EaMinMax
       (snd (ImageByteMap.setAddrMinMax (5, 3) image_100_200)) = (0, 0).
Proof.
  cbv zeta. unfold range_ordered. cbv -[Z.le].
  split; [lia|]. split; [reflexivity|]. split; [lia|reflexivity].
Qed.

(** C6. Decoding the encoding of a data object, into any data object,
    gives an object with the UUID, the address and the size of the
    encoded one. *)
Theorem data_object_roundtrip (d target : DataObject.t) :
  is_u64 (DataObject.Address d) ->
  let d' := DataObject.fromProtobuf (DataObject.toProtobuf d) target in
  DataObject.UUID d' = DataObject.UUID d
  /\ DataObject.getAddress d' = DataObject.getAddress d
  /\ DataObject.getSize d' = DataObject.getSize d.
Proof.
  intros Ha d'. subst d'. destruct d as [u a s]. cbn in *.
  rewrite (of_to_u64 a Ha). repeat split.
Qed.

Lemma data_object_roundtrip_witness :
  is_u64 (DataObject.Address sample_data_object)
  /\ DataObject.fromProtobuf (DataObject.toProtobuf sample_data_object)
       blank_data_object = sample_data_object.
Proof.
  assert (Ha : is_u64 (DataObject.Address sample_data_object)).
  { unfold is_u64, two64. cbn. lia. }
  split; [exact Ha|].
  pose proof (data_object_roundtrip sample_data_object blank_data_object Ha)
    as H.
  cbv zeta in H. destruct H as (Hu & Haddr & Hsz).
  unfold DataObject.getAddress, DataObject.getSize in *.
  destruct (DataObject.fromProtobuf (DataObject.toProtobuf sample_data_object)
              blank_data_object) as [u a s].
  cbn in Hu, Haddr, Hsz. subst. reflexivity.
Defined.

(** C7. For both entities whose codec is in the sources, the message
    produced by [toProtobuf] has the bytes of the entity's UUID in its
    [uuid] field, and after [fromProtobuf] the UUID of the object is
    made of the bytes of that field of the message, whatever UUID the
    object had before: none is generated afresh. *)
Theorem uuid_carried_and_restored :
  (forall d : DataObject.t,
      DataObject.uuid (DataObject.toProtobuf d) = DataObject.UUID d)
  /\ (forall (Msg : DataObject.Message) (d : DataObject.t),
         DataObject.UUID (DataObject.fromProtobuf Msg d)
         = DataObject.uuid Msg)
  /\ (forall BM Wire (Engine : ByteStore BM Wire)
             (img : ImageByteMap.t BM),
         ImageByteMap.uuid (ImageByteMap.toProtobuf img)
         = ImageByteMap.UUID img)
  /\ (forall BM Wire (Engine : ByteStore BM Wire)
             (Msg : ImageByteMap.Message Wire) (img : ImageByteMap.t BM),
         ImageByteMap.UUID (ImageByteMap.fromProtobuf Msg img)
         = ImageByteMap.uuid Msg).
Proof.
  repeat split.
Qed.

(** ** Byte access at the edges of the range check *)

(** C1, at the failing input.  The fill overload has no range check.  On
    the image with [min = 100] and [max = 200] the one-byte span write at
    [201] is rejected, but the fill of one byte at [201] returns and
    leaves the byte in the store; the fill of ten bytes at [195] returns
    too and writes past [max], at [204]. *)
Theorem setData_fill_skips_range_check :
  let v := Byte.xab in
  let img := image_100_200 in
  ~ spec_contained img 201 1
  /\ ImageByteMap.setData 201 [v] img = (inl OutOfRange, img)
  /\ outcome (ImageByteMap.setData_fill 201 1 v img) = inr tt
  /\ ImageByteMap.ByteMap (final (ImageByteMap.setData_fill 201 1 v img))
       !! 201 = Some v
  /\ ~ spec_contained img 195 10
  /\ outcome (ImageByteMap.setData_fill 195 10 v img) = inr tt
  /\ ImageByteMap.ByteMap (final (ImageByteMap.setData_fill 195 10 v img))
       !! 204 = Some v
  /\ ImageByteMap.ByteMap img !! 204 = None.
Proof. by_evaluation. Qed.

(** C3, at the failing input.  On the image with [min = 10] and
    [max = 20], a span of two bytes at the last address [2^64 - 1] is not
    contained in the range, yet the end of the run wraps to [0], the
    check passes, the call is handed to the engine and returns, and the
    store holds the first byte at [2^64 - 1]. *)
Theorem setData_span_end_wraps :
  let Data := [Byte.x01; Byte.x02] in
  let img := image_10_20 in
  ~ spec_contained img top_addr (Z.of_nat (length Data))
  /\ Addr.sub (Addr.add top_addr (Z.of_nat (length Data))) 1 = 0
  /\ ImageByteMap.in_bounds img top_addr (Z.of_nat (length Data)) = true
  /\ ImageByteMap.setData top_addr Data img
     = ImageByteMap.on_ByteMap (bm_setData top_addr Data) img
  /\ outcome (ImageByteMap.setData top_addr Data img) = inr tt
  /\ ImageByteMap.ByteMap (final (ImageByteMap.setData top_addr Data img))
       !! top_addr = Some Byte.x01
  /\ ImageByteMap.ByteMap img !! top_addr = None.
Proof. by_evaluation. Qed.

(** C5, at the failing input.  On the image with [min = 10] and
    [max = 20], a read of two bytes at the last address [2^64 - 1] is
    not within the range, yet the end of the range wraps to [0], the
    check passes and the answer is the engine's: with a byte stored at
    [2^64 - 1] and one at [0], the call returns these two bytes. *)
Theorem getData_end_wraps :
  let img := image_10_20_stray in
  ~ spec_contained img top_addr 2
  /\ Addr.sub (Addr.add top_addr 2) 1 = 0
  /\ ImageByteMap.in_bounds img top_addr 2 = true
  /\ ImageByteMap.getData top_addr 2 img
     = (bm_getData top_addr 2 (ImageByteMap.ByteMap img), img)
  /\ outcome (ImageByteMap.getData top_addr 2 img)
     = inr [Byte.x01; Byte.x02].
Proof. by_evaluation. Qed.

(** ** Accesses of length zero *)

Section ZeroLength.

Context {BM Wire : Type} `{Engine : ByteStore BM Wire}.
Implicit Types (img : ImageByteMap.t BM).

(** C10, as the code has it.  A zero-length access is not accepted
    unconditionally: for [Bytes = 0], or an empty span, the check
    compares [X] with [min] and the address [X - 1], taken modulo
    [2^64], with [max].  So, with [min <= max < 2^64 - 1], the access at
    [max + 1] passes the check and reaches the engine; and an access at
    an [X] below [min], or whose predecessor [X - 1] modulo [2^64] is
    above [max], raises [OutOfRange] and leaves the image untouched:
    this is the case at [X = 0], where the predecessor wraps to
    [2^64 - 1], as soon as [max < 2^64 - 1]. *)
Theorem zero_length_check img :
  let lo := fst (ImageByteMap.EaMinMax img) in
  let hi := snd (ImageByteMap.EaMinMax img) in
  (forall X,
      ImageByteMap.in_bounds img X 0 = true <->
      lo <= X /\ wrap64 (X - 1) <= hi)
  /\ (lo <= hi -> 0 <= hi -> hi < two64 - 1 ->
      ImageByteMap.getData (Addr.add hi 1) 0 img
      = (bm_getData (hi + 1) 0 (ImageByteMap.ByteMap img), img)
      /\ ImageByteMap.setData (Addr.add hi 1) [] img
         = ImageByteMap.on_ByteMap (bm_setData (hi + 1) []) img)
  /\ (forall X,
         X < lo \/ hi < wrap64 (X - 1) ->
         ImageByteMap.getData X 0 img = (inl OutOfRange, img)
         /\ ImageByteMap.setData X [] img = (inl OutOfRange, img))
  /\ (hi < two64 - 1 ->
      ImageByteMap.getData 0 0 img = (inl OutOfRange, img)
      /\ ImageByteMap.setData 0 [] img = (inl OutOfRange, img)).
Proof.
  intros lo hi.
  assert (Hchk : forall X,
             ImageByteMap.in_bounds img X 0 = true <->
             lo <= X /\ wrap64 (X - 1) <= hi).
  { intros X. rewrite in_bounds_iff. subst lo hi.
    replace (X + 0 - 1) with (X - 1) by lia. reflexivity. }
  assert (Hrej : forall X,
             X < lo \/ hi < wrap64 (X - 1) ->
             ImageByteMap.getData X 0 img = (inl OutOfRange, img)
             /\ ImageByteMap.setData X [] img = (inl OutOfRange, img)).
  { intros X HX.
    assert (ImageByteMap.in_bounds img X 0 = false) as Hf.
    { apply not_true_is_false. rewrite Hchk. lia. }
    split; [apply getData_rejected | apply setData_rejected]; exact Hf. }
  split; [exact Hchk|]. split; [|split; [exact Hrej|]].
  - intros Hord Hpos Htop.
    assert (Hnext : Addr.add hi 1 = hi + 1).
    { unfold Addr.add. apply wrap64_small. unfold is_u64. lia. }
    assert (ImageByteMap.in_bounds img (hi + 1) 0 = true) as Ht.
    { apply Hchk. replace (hi + 1 - 1) with hi by lia.
      rewrite wrap64_small by (unfold is_u64; lia). lia. }
    rewrite Hnext. split.
    + apply getData_delegated, Ht.
    + apply setData_delegated, Ht.
  - intros Htop. apply Hrej. right.
    change (wrap64 (0 - 1)) with (two64 - 1). lia.
Qed.

End ZeroLength.

(** Witness of C10 (amended) on the image with [min = 100] and
    [max = 200]: the empty read at [201] is answered by the engine, the
    one at [0] raises [OutOfRange]. *)
Lemma zero_length_check_witness :
  ImageByteMap.getData 201 0 image_100_200 = (inr [], image_100_200)
  /\ ImageByteMap.getData 0 0 image_100_200
     = (inl OutOfRange, image_100_200).
Proof.
  pose proof (zero_length_check image_100_200) as H. cbv zeta in H.
  destruct H as (_ & Hpass & _ & Hzero).
  split.
  - apply Hpass; vm_compute;
      first [reflexivity | intros Hcmp; discriminate Hcmp].
  - apply Hzero. reflexivity.
Defined.

(** C10, counterexample.  On the image with [min = 100] and [max = 200]
    the predecessor [99] of [X = 100] falls outside [[100, 200]], and yet
    the zero-length read and the empty write at [100] pass the check and
    are answered by the engine.  And where [max] is the last address
    [2^64 - 1] and [min = 1], the zero-length read at [max + 1], which
    is address [0], does not pass the check. *)
Lemma zero_length_pred_below_min_passes :
  let img := image_100_200 in
  let img' := sample_image 1 top_addr little in
  Addr.sub (Addr.add 100 0) 1 = 99
  /\ ~ (fst (ImageByteMap.EaMinMax img) <= 99
        /\ 99 <= snd (ImageByteMap.EaMinMax img))
  /\ ImageByteMap.getData 100 0 img = (inr [], img)
  /\ outcome (ImageByteMap.setData 100 [] img) = inr tt
  /\ range_ordered img'
  /\ ImageByteMap.getData (Addr.add top_addr 1) 0 img'
     = (inl OutOfRange, img').
Proof.
  cbv zeta. repeat split; try (vm_compute; reflexivity).
  - vm_compute. intros [Hlo _]. apply Hlo. reflexivity.
  - vm_compute. intros Hcmp. discriminate Hcmp.
Qed.

(* ===================================================================== *)
(** * Further properties of the code *)

(** ** The range and its setter *)

Section RangeSetter.

Context {BM Wire : Type} `{Engine : ByteStore BM Wire}.
Implicit Types (img : ImageByteMap.t BM) (X Y : Addr.t * Addr.t).

(** X1. Whatever pair it is given and whatever range the image held,
    even an inverted one, [setAddrMinMax] leaves the image with
    [min <= max]; it answers [true] exactly when the pair it was given is
    ordered, and the image after the call is the image before it with
    another range: no other member is assigned. *)
Theorem setAddrMinMax_restores_order X img :
  let r := ImageByteMap.setAddrMinMax X img in
  range_ordered (snd r)
  /\ (fst r = true <-> fst X <= snd X)
  /\ snd r = ImageByteMap.with_EaMinMax (ImageByteMap.EaMinMax (snd r)) img.
Proof.
  cbv zeta. unfold ImageByteMap.setAddrMinMax, range_ordered.
  destruct (Addr.le (fst X) (snd X)) eqn:HX; cbn.
  - apply addr_le_iff in HX. repeat split; auto.
  - assert (~ fst X <= snd X) as Hn.
    { rewrite <- addr_le_iff, HX. discriminate. }
    split; [reflexivity|]. split; [|reflexivity].
    split; [discriminate|tauto].
Qed.

(** X2. The setter keeps no history: the image and the answer after two
    calls are those of the second call alone, so the call is idempotent
    and a rejected pair does not prevent a later, ordered one from being
    stored. *)
Theorem setAddrMinMax_last_call_wins X Y img :
  ImageByteMap.setAddrMinMax Y (snd (ImageByteMap.setAddrMinMax X img))
  = ImageByteMap.setAddrMinMax Y img.
Proof.
  unfold ImageByteMap.setAddrMinMax.
  destruct (Addr.le (fst X) (snd X)), (Addr.le (fst Y) (snd Y));
    reflexivity.
Qed.

(** X3. Widening the range never turns an accepted access into a
    rejected one: if the new, ordered range contains the old one, an
    access that passed the check still passes it, and a read that passed
    has the same answer. *)
Theorem widening_keeps_accesses X img (A N : Z) :
  fst X <= snd X ->
  fst X <= fst (ImageByteMap.EaMinMax img) ->
  snd (ImageByteMap.EaMinMax img) <= snd X ->
  ImageByteMap.in_bounds img A N = true ->
  let img' := snd (ImageByteMap.setAddrMinMax X img) in
  ImageByteMap.in_bounds img' A N = true
  /\ outcome (ImageByteMap.getData A N img')
     = outcome (ImageByteMap.getData A N img).
Proof.
  intros Hord Hlo Hhi Hin img'.
  assert (Hset : img' = ImageByteMap.with_EaMinMax X img).
  { subst img'. unfold ImageByteMap.setAddrMinMax.
    apply addr_le_iff in Hord. rewrite Hord. reflexivity. }
  assert (Hin' : ImageByteMap.in_bounds img' A N = true).
  { rewrite Hset. apply in_bounds_iff. apply in_bounds_iff in Hin.
    cbn. lia. }
  split; [exact Hin'|].
  rewrite (getData_delegated img' A N Hin'), (getData_delegated img A N Hin).
  rewrite Hset. reflexivity.
Qed.

(** X4. After a rejected update the range is [(0, 0)], which is not an
    empty range: of the accesses of at least one byte that do not pass
    the end of the address space, the image then accepts the one-byte
    access at address [0] and no other. *)
Theorem rejected_update_leaves_address_zero X img (A N : Z) :
  snd X < fst X ->
  is_u64 A -> 1 <= N -> A + N - 1 < two64 ->
  ImageByteMap.in_bounds (snd (ImageByteMap.setAddrMinMax X img)) A N = true
  <-> A = 0 /\ N = 1.
Proof.
  intros HX HA HN Hend.
  assert (Hset : snd (ImageByteMap.setAddrMinMax X img)
                 = ImageByteMap.with_EaMinMax (Addr.zero, Addr.zero) img).
  { unfold ImageByteMap.setAddrMinMax.
    assert (Addr.le (fst X) (snd X) = false) as ->; [|reflexivity].
    apply not_true_is_false. rewrite addr_le_iff. lia. }
  rewrite Hset, in_bounds_contained by (unfold is_u64 in *; lia).
  unfold spec_contained, Addr.zero, is_u64 in *. cbn. lia.
Qed.

End RangeSetter.

Lemma widening_keeps_accesses_witness :
  ImageByteMap.in_bounds
    (snd (ImageByteMap.setAddrMinMax (50, 300) image_100_200)) 150 8 = true
  /\ outcome (ImageByteMap.getData 150 8
                (snd (ImageByteMap.setAddrMinMax (50, 300) image_100_200)))
     = outcome (ImageByteMap.getData 150 8 image_100_200).
Proof.
  apply (widening_keeps_accesses (50, 300) image_100_200 150 8);
    vm_compute; first [reflexivity | intros Hcmp; discriminate Hcmp].
Defined.

Lemma rejected_update_leaves_address_zero_witness :
  ImageByteMap.in_bounds
    (snd (ImageByteMap.setAddrMinMax (7, 3) image_100_200)) 0 1 = true.
Proof.
  apply (rejected_update_leaves_address_zero (7, 3) image_100_200 0 1).
  - vm_compute. reflexivity.
  - unfold is_u64, two64. lia.
  - lia.
  - unfold two64. lia.
  - split; reflexivity.
Defined.

(** ** Byte access and the other members *)

Section AccessAndAttributes.

Context {BM Wire : Type} `{Engine : ByteStore BM Wire}.
Implicit Types (img : ImageByteMap.t BM).

(** What the proofs below use of an attribute setter: it leaves the
    engine and the range alone, and it does not matter whether it runs
    before or after an assignment to the engine. *)
Lemma attribute_setter_inert (s : ImageByteMap.t BM -> ImageByteMap.t BM) :
  attribute_setter s ->
  forall img,
    ImageByteMap.ByteMap (s img) = ImageByteMap.ByteMap img
    /\ ImageByteMap.EaMinMax (s img) = ImageByteMap.EaMinMax img
    /\ forall bm, ImageByteMap.with_ByteMap bm (s img)
                  = s (ImageByteMap.with_ByteMap bm img).
Proof.
  intros [[X ->]|[[X ->]|[[X ->]|[[X ->]|[->|[V ->]]]]]] img;
    repeat split.
Qed.

Lemma on_ByteMap_after_setter {A}
  (s : ImageByteMap.t BM -> ImageByteMap.t BM) (c : M BM A) img :
  attribute_setter s ->
  ImageByteMap.on_ByteMap c (s img)
  = (outcome (ImageByteMap.on_ByteMap c img),
     s (final (ImageByteMap.on_ByteMap c img))).
Proof.
  intros Hs. destruct (attribute_setter_inert s Hs img) as (Hbm & _ & Hcomm).
  unfold ImageByteMap.on_ByteMap. rewrite Hbm.
  destruct (c (ImageByteMap.ByteMap img)) as [r bm]. cbn.
  rewrite Hcomm. reflexivity.
Qed.

Lemma fill_loop_after_setter
  (s : ImageByteMap.t BM -> ImageByteMap.t BM)
  (Ea : Addr.t) (Value : Byte.byte) (n : nat) :
  attribute_setter s ->
  forall (I : Z) img,
    ImageByteMap.fill_loop n I Ea Value (s img)
    = (outcome (ImageByteMap.fill_loop n I Ea Value img),
       s (final (ImageByteMap.fill_loop n I Ea Value img))).
Proof.
  intros Hs. induction n as [|n IH]; intros I img;
    cbn [ImageByteMap.fill_loop].
  - reflexivity.
  - unfold bind. rewrite (on_ByteMap_after_setter s _ img Hs).
    destruct (ImageByteMap.on_ByteMap
                (bm_setData (Addr.add Ea I) [Value]) img) as [[e|[]] img'];
      cbn.
    + reflexivity.
    + apply IH.
Qed.

(** X5. The byte accesses do not depend on the attributes, and the
    attribute setters do not depend on the bytes: running [setFileName],
    [setBaseAddress], [setEntryPointAddress], [setRebaseDelta],
    [setIsRelocated] or [setByteOrder] before a [setData] (either
    overload) or a [getData] gives the outcome, and the image, of
    running it after.  In particular a new base address moves neither
    the range nor the stored bytes. *)
Theorem attribute_setters_commute_with_access
  (s : ImageByteMap.t BM -> ImageByteMap.t BM) img :
  attribute_setter s ->
  (forall Ea Data,
      ImageByteMap.setData Ea Data (s img)
      = (outcome (ImageByteMap.setData Ea Data img),
         s (final (ImageByteMap.setData Ea Data img))))
  /\ (forall Ea Bytes Value,
         ImageByteMap.setData_fill Ea Bytes Value (s img)
         = (outcome (ImageByteMap.setData_fill Ea Bytes Value img),
            s (final (ImageByteMap.setData_fill Ea Bytes Value img))))
  /\ (forall X Bytes,
         ImageByteMap.getData X Bytes (s img)
         = (outcome (ImageByteMap.getData X Bytes img), s img)).
Proof.
  intros Hs.
  destruct (attribute_setter_inert s Hs img) as (Hbm & Hrange & _).
  assert (Hchk : forall A N, ImageByteMap.in_bounds (s img) A N
                             = ImageByteMap.in_bounds img A N).
  { intros A N. unfold ImageByteMap.in_bounds. rewrite Hrange.
    reflexivity. }
  split; [|split].
  - intros Ea Data. unfold ImageByteMap.setData. rewrite Hchk.
    destruct (ImageByteMap.in_bounds img Ea (Z.of_nat (length Data))).
    + apply on_ByteMap_after_setter, Hs.
    + reflexivity.
  - intros Ea Bytes Value. apply fill_loop_after_setter, Hs.
  - intros X Bytes. unfold ImageByteMap.getData, reads.
    rewrite Hchk, Hbm. reflexivity.
Qed.

(** X6. A write that the image accepts is read back through the image
    as the engine reads it back: after a [setData] of a run that passes
    the check and that the engine takes, [getData] of the same address
    and length passes the check too and, over an engine that reads back
    what it has just been given, returns the run. *)
Theorem accepted_write_reads_back img (Ea : Addr.t) (Data : list Byte.byte) :
  ImageByteMap.in_bounds img Ea (Z.of_nat (length Data)) = true ->
  engine_reads_back Ea Data (ImageByteMap.ByteMap img) ->
  outcome (ImageByteMap.setData Ea Data img) = inr tt ->
  ImageByteMap.getData Ea (Z.of_nat (length Data))
    (final (ImageByteMap.setData Ea Data img))
  = (inr Data, final (ImageByteMap.setData Ea Data img)).
Proof.
  intros Hin Hback Hok.
  rewrite (setData_delegated img Ea Data Hin) in *.
  unfold ImageByteMap.on_ByteMap, engine_reads_back in *.
  destruct (bm_setData Ea Data (ImageByteMap.ByteMap img)) as [r bm].
  cbn in *. rewrite getData_delegated by exact Hin.
  cbn. rewrite (Hback Hok). reflexivity.
Qed.

End AccessAndAttributes.

Lemma attribute_setters_commute_with_access_witness :
  ImageByteMap.setData 150 [Byte.x7f]
    (ImageByteMap.setBaseAddress 8192 image_100_200)
  = (inr tt,
     ImageByteMap.setBaseAddress 8192
       (final (ImageByteMap.setData 150 [Byte.x7f] image_100_200))).
Proof.
  assert (Hs : attribute_setter
                 (ImageByteMap.setBaseAddress (BM := gmap Z Byte.byte) 8192)).
  { right. left. exists 8192. reflexivity. }
  destruct (attribute_setters_commute_with_access
              (ImageByteMap.setBaseAddress 8192) image_100_200 Hs)
    as (Hset & _ & _).
  rewrite Hset. reflexivity.
Defined.

Lemma accepted_write_reads_back_witness :
  let Data := [Byte.x01; Byte.x02; Byte.x03] in
  outcome (ImageByteMap.getData 150 3
             (final (ImageByteMap.setData 150 Data image_100_200)))
  = inr Data.
Proof.
  intros Data.
  rewrite (accepted_write_reads_back image_100_200 150 Data).
  - reflexivity.
  - vm_compute. reflexivity.
  - intros _. vm_compute. reflexivity.
  - vm_compute. reflexivity.
Defined.

(** ** The fill overload *)

Lemma addr_add_add (Ea : Addr.t) (I k : Z) :
  Addr.add (Addr.add Ea I) k = Addr.add Ea (I + k).
Proof.
  unfold Addr.add, wrap64. rewrite Zplus_mod_idemp_l.
  f_equal. lia.
Qed.

(** The sample engine writes byte by byte and does not throw. *)
Lemma ByteMap_engine_bytewise : engine_bytewise (BM := gmap Z Byte.byte).
Proof. split; intros; reflexivity. Qed.

Lemma ByteMap_engine_total : engine_total (BM := gmap Z Byte.byte).
Proof. intros a d bm. reflexivity. Qed.

Section Fill.

Context {BM Wire : Type} `{Engine : ByteStore BM Wire}.
Implicit Types (img : ImageByteMap.t BM).

Lemma with_ByteMap_same img :
  ImageByteMap.with_ByteMap (ImageByteMap.ByteMap img) img = img.
Proof. destruct img. reflexivity. Qed.

Lemma fill_loop_as_span (Ea : Addr.t) (Value : Byte.byte) (n : nat) :
  engine_bytewise (BM := BM) ->
  forall (I : Z) img,
    ImageByteMap.fill_loop n I Ea Value img
    = ImageByteMap.on_ByteMap
        (bm_setData (Addr.add Ea I) (replicate n Value)) img.
Proof.
  intros [Hnil Hcons]. induction n as [|n IH]; intros I img;
    cbn [ImageByteMap.fill_loop replicate].
  - unfold ImageByteMap.on_ByteMap. rewrite Hnil, with_ByteMap_same.
    reflexivity.
  - unfold bind, ImageByteMap.on_ByteMap.
    rewrite (Hcons (Addr.add Ea I) Value (replicate n Value)). unfold bind.
    destruct (bm_setData (Addr.add Ea I) [Value] (ImageByteMap.ByteMap img))
      as [[e|[]] bm1].
    + reflexivity.
    + rewrite IH, addr_add_add. unfold ImageByteMap.on_ByteMap. cbn.
      destruct (bm_setData (Addr.add Ea (I + 1)) (replicate n Value) bm1).
      reflexivity.
Qed.

(** X7. Over an engine that writes a run byte by byte, the fill
    overload is the unchecked span write of [Bytes] copies of the byte:
    it hands the engine the same bytes at the same addresses, never
    looking at the range.  So wherever the span overload accepts that
    run, the two overloads do the same. *)
Theorem fill_is_span_of_copies img (Ea : Addr.t) (Bytes : Z)
  (Value : Byte.byte) :
  engine_bytewise (BM := BM) ->
  is_u64 Ea -> 0 <= Bytes ->
  let Data := replicate (Z.to_nat Bytes) Value in
  ImageByteMap.setData_fill Ea Bytes Value img
  = ImageByteMap.on_ByteMap (bm_setData Ea Data) img
  /\ (ImageByteMap.in_bounds img Ea Bytes = true ->
      ImageByteMap.setData_fill Ea Bytes Value img
      = ImageByteMap.setData Ea Data img).
Proof.
  intros Hbw HEa HB Data.
  assert (Hfill : ImageByteMap.setData_fill Ea Bytes Value img
                  = ImageByteMap.on_ByteMap (bm_setData Ea Data) img).
  { unfold ImageByteMap.setData_fill.
    rewrite (fill_loop_as_span Ea Value _ Hbw).
    unfold Addr.add. replace (Ea + 0) with Ea by lia.
    rewrite (wrap64_small Ea HEa). reflexivity. }
  split; [exact Hfill|].
  intros Hin. rewrite Hfill. symmetry. apply setData_delegated.
  subst Data. rewrite length_replicate, Z2Nat.id by exact HB. exact Hin.
Qed.

Lemma fill_loop_shift (Ea : Addr.t) (Value : Byte.byte) (k : Z) (n : nat) :
  forall (I : Z) img,
    ImageByteMap.fill_loop n I (Addr.add Ea k) Value img
    = ImageByteMap.fill_loop n (k + I) Ea Value img.
Proof.
  induction n as [|n IH]; intros I img; cbn [ImageByteMap.fill_loop].
  - reflexivity.
  - unfold bind. rewrite addr_add_add.
    destruct (ImageByteMap.on_ByteMap
                (bm_setData (Addr.add Ea (k + I)) [Value]) img)
      as [[e|[]] img'].
    + reflexivity.
    + rewrite IH. f_equal. lia.
Qed.

Lemma fill_loop_app (Ea : Addr.t) (Value : Byte.byte) (m : nat) (n : nat) :
  forall (I : Z) img,
    ImageByteMap.fill_loop (n + m) I Ea Value img
    = (ImageByteMap.fill_loop n I Ea Value ;;
       ImageByteMap.fill_loop m (I + Z.of_nat n) Ea Value)%cxx img.
Proof.
  induction n as [|n IH]; intros I img.
  - cbn. f_equal. lia.
  - cbn [Nat.add ImageByteMap.fill_loop]. unfold bind at 1 2 3.
    destruct (ImageByteMap.on_ByteMap
                (bm_setData (Addr.add Ea I) [Value]) img)
      as [[e|[]] img'].
    + reflexivity.
    + rewrite IH. unfold bind.
      destruct (ImageByteMap.fill_loop n (I + 1) Ea Value img')
        as [[e|[]] img''].
      * reflexivity.
      * f_equal. lia.
Qed.

(** X8. Filling [n + m] bytes at [Ea] is filling [n] bytes at [Ea] and
    then, unless the engine threw, [m] bytes at [Ea + n], for every
    engine: the outcome and the image are the same, also when an engine
    throws part of the way. *)
Theorem fill_splits img (Ea : Addr.t) (n m : Z) (Value : Byte.byte) :
  0 <= n -> 0 <= m ->
  ImageByteMap.setData_fill Ea (n + m) Value img
  = (ImageByteMap.setData_fill Ea n Value ;;
     ImageByteMap.setData_fill (Addr.add Ea n) m Value)%cxx img.
Proof.
  intros Hn Hm. unfold ImageByteMap.setData_fill.
  rewrite Z2Nat.inj_add by assumption.
  rewrite fill_loop_app. unfold bind.
  destruct (ImageByteMap.fill_loop (Z.to_nat n) 0 Ea Value img)
    as [[e|[]] img'].
  - reflexivity.
  - rewrite fill_loop_shift, Z2Nat.id by exact Hn.
    f_equal. lia.
Qed.

Lemma fill_loop_total (Ea : Addr.t) (Value : Byte.byte) (n : nat) :
  engine_total (BM := BM) ->
  forall (I : Z) img,
    outcome (ImageByteMap.fill_loop n I Ea Value img) = inr tt.
Proof.
  intros Htot. induction n as [|n IH]; intros I img;
    cbn [ImageByteMap.fill_loop].
  - reflexivity.
  - unfold bind, ImageByteMap.on_ByteMap.
    pose proof (Htot (Addr.add Ea I) [Value] (ImageByteMap.ByteMap img))
      as Hstep.
    destruct (bm_setData (Addr.add Ea I) [Value] (ImageByteMap.ByteMap img))
      as [r bm]. cbn in Hstep. subst r. apply IH.
Qed.

(** X9. The fill overload raises nothing of its own: over an engine
    whose writes do not throw it returns normally for every address,
    count and byte and on every image, whatever the range of the image,
    while the span overload raises [OutOfRange] on the same image
    whenever its check fails. *)
Theorem fill_never_rejects img (Ea : Addr.t) (Bytes : Z)
  (Value : Byte.byte) (Data : list Byte.byte) :
  engine_total (BM := BM) ->
  outcome (ImageByteMap.setData_fill Ea Bytes Value img) = inr tt
  /\ (ImageByteMap.in_bounds img Ea (Z.of_nat (length Data)) = false ->
      outcome (ImageByteMap.setData Ea Data img) = inl OutOfRange).
Proof.
  intros Htot. split.
  - apply fill_loop_total, Htot.
  - intros Hout. rewrite (setData_rejected img Ea Data Hout). reflexivity.
Qed.

End Fill.

Lemma fill_is_span_of_copies_witness :
  ImageByteMap.setData_fill 120 4 Byte.xab image_100_200
  = ImageByteMap.setData 120
      [Byte.xab; Byte.xab; Byte.xab; Byte.xab] image_100_200.
Proof.
  apply (fill_is_span_of_copies image_100_200 120 4 Byte.xab
           ByteMap_engine_bytewise).
  - unfold is_u64, two64. lia.
  - lia.
  - vm_compute. reflexivity.
Defined.

Lemma fill_splits_witness :
  ImageByteMap.setData_fill 198 5 Byte.xab image_100_200
  = (ImageByteMap.setData_fill 198 2 Byte.xab ;;
     ImageByteMap.setData_fill 200 3 Byte.xab)%cxx image_100_200.
Proof.
  apply (fill_splits image_100_200 198 2 3 Byte.xab); lia.
Defined.

Lemma fill_never_rejects_witness :
  outcome (ImageByteMap.setData_fill 5000 3 Byte.xab image_100_200) = inr tt
  /\ outcome (ImageByteMap.setData 5000 [Byte.xab; Byte.xab; Byte.xab]
                image_100_200) = inl OutOfRange.
Proof.
  destruct (fill_never_rejects image_100_200 5000 3 Byte.xab
              [Byte.xab; Byte.xab; Byte.xab] ByteMap_engine_total)
    as [Hfill Hspan].
  split; [exact Hfill|]. apply Hspan. vm_compute. reflexivity.
Defined.

(** ** What the messages carry *)

Lemma wrap64_inj (a b : Z) : is_u64 a -> is_u64 b -> wrap64 a = wrap64 b -> a = b.
Proof.
  intros Ha Hb. rewrite (wrap64_small a Ha), (wrap64_small b Hb). auto.
Qed.

Lemma to_of_u64 (z : Z) : is_u64 z -> Addr.to_u64 (Addr.of_u64 z) = z.
Proof.
  intros Hz. unfold Addr.of_u64, Addr.to_u64.
  rewrite (wrap64_small z Hz). apply wrap64_small, Hz.
Qed.

Section Messages.

Context {BM Wire : Type} `{Engine : ByteStore BM Wire}.
Implicit Types (x y target : ImageByteMap.t BM).

(** X10. The message of an image determines the image up to its byte
    order, and nothing more: over an engine with a lossless codec, two
    images have the same encoding exactly when they agree on the UUID,
    the byte map, the file name, the base and entry-point addresses, the
    range, the rebase delta and the relocated flag. *)
Theorem encoding_equal_iff_same_but_byte_order x y :
  lossless_codec (BM := BM) ->
  image_wf x -> image_wf y ->
  ImageByteMap.toProtobuf x = ImageByteMap.toProtobuf y
  <-> same_but_ByteOrder x y.
Proof.
  intros Hcodec (Hlo & Hhi & Hb & He) (Hlo' & Hhi' & Hb' & He').
  destruct x as [u bm f b e [lo hi] d r o].
  destruct y as [u' bm' f' b' e' [lo' hi'] d' r' o'].
  unfold same_but_ByteOrder, ImageByteMap.toProtobuf. cbn in *.
  split.
  - intros Hmsg. injection Hmsg as Hu Hbm Hf Hmin Hmax Hbase Hentry Hd Hr.
    apply wrap64_inj in Hmin, Hmax, Hbase, Hentry; try assumption.
    assert (bm = bm') as ->.
    { rewrite <- (Hcodec bm bm), <- (Hcodec bm' bm), Hbm. reflexivity. }
    unfold Node.nodeUUIDToBytes in Hu. subst. repeat split.
  - intros (-> & -> & -> & -> & -> & Hrange & -> & ->).
    injection Hrange as -> ->. reflexivity.
Qed.

(** X11. A decoded image encodes back to the message it was decoded
    from: for a message whose address fields are 64-bit values, every
    field of the re-encoding is that of the message, the nested message
    of the byte map being the engine's re-encoding of it. *)
Theorem image_reencoding (Msg : ImageByteMap.Message Wire) target :
  message_wf Msg ->
  let Msg' := ImageByteMap.toProtobuf (ImageByteMap.fromProtobuf Msg target) in
  Msg' = ImageByteMap.mkMessage
           (ImageByteMap.uuid Msg)
           (bm_toProtobuf
              (bm_fromProtobuf (ImageByteMap.byte_map Msg)
                 (ImageByteMap.ByteMap target)))
           (ImageByteMap.file_name Msg) (ImageByteMap.addr_min Msg)
           (ImageByteMap.addr_max Msg) (ImageByteMap.base_address Msg)
           (ImageByteMap.entry_point_address Msg)
           (ImageByteMap.rebase_delta Msg) (ImageByteMap.is_relocated Msg)
  /\ (bm_toProtobuf
        (bm_fromProtobuf (ImageByteMap.byte_map Msg)
           (ImageByteMap.ByteMap target))
      = ImageByteMap.byte_map Msg -> Msg' = Msg).
Proof.
  intros (Hmin & Hmax & Hbase & Hentry) Msg'. subst Msg'.
  destruct Msg as [u w f lo hi b e d r].
  unfold ImageByteMap.toProtobuf, ImageByteMap.fromProtobuf. cbn in *.
  rewrite !to_of_u64 by assumption.
  split; [reflexivity|]. intros ->. reflexivity.
Qed.

(** X12. Encoding and decoding keep what the image accepts: the decoded
    image passes the range check for exactly the accesses that the
    encoded one passes, and its range is ordered exactly when that of
    the encoded one is. *)
Theorem roundtrip_keeps_accepted_accesses x target :
  image_wf x ->
  let y := ImageByteMap.fromProtobuf (ImageByteMap.toProtobuf x) target in
  (forall A N, ImageByteMap.in_bounds y A N = ImageByteMap.in_bounds x A N)
  /\ (range_ordered y <-> range_ordered x).
Proof.
  intros (Hlo & Hhi & _ & _) y.
  assert (Hrange : ImageByteMap.EaMinMax y = ImageByteMap.EaMinMax x).
  { subst y. destruct x as [u bm f b e [lo hi] d r o]. cbn in *.
    rewrite !of_to_u64 by assumption. reflexivity. }
  split.
  - intros A N. unfold ImageByteMap.in_bounds. rewrite Hrange. reflexivity.
  - unfold range_ordered. rewrite Hrange. reflexivity.
Qed.

End Messages.

(** X13. A decoded data object encodes back to the message it was
    decoded from, field for field, whenever the address field of the
    message is a 64-bit value. *)
Theorem data_object_reencoding (Msg : DataObject.Message)
  (target : DataObject.t) :
  is_u64 (DataObject.address Msg) ->
  DataObject.toProtobuf (DataObject.fromProtobuf Msg target) = Msg.
Proof.
  intros Ha. destruct Msg as [u a s].
  unfold DataObject.toProtobuf, DataObject.fromProtobuf. cbn in *.
  rewrite (to_of_u64 a Ha). reflexivity.
Qed.

(** X14. Data objects with the same encoding are the same object:
    [toProtobuf] leaves no member out. *)
Theorem data_object_encoding_injective (d1 d2 : DataObject.t) :
  is_u64 (DataObject.Address d1) -> is_u64 (DataObject.Address d2) ->
  DataObject.toProtobuf d1 = DataObject.toProtobuf d2 -> d1 = d2.
Proof.
  intros H1 H2 Hmsg. destruct d1 as [u1 a1 s1], d2 as [u2 a2 s2].
  unfold DataObject.toProtobuf in Hmsg. cbn in *.
  injection Hmsg as Hu Ha Hs.
  apply wrap64_inj in Ha; try assumption.
  unfold Node.nodeUUIDToBytes in Hu. subst. reflexivity.
Qed.

Lemma encoding_equal_iff_same_but_byte_order_witness :
  ImageByteMap.toProtobuf (sample_image 100 200 big)
  = ImageByteMap.toProtobuf (sample_image 100 200 little).
Proof.
  apply (encoding_equal_iff_same_but_byte_order
           (sample_image 100 200 big) (sample_image 100 200 little)
           ByteMap_codec_lossless).
  - unfold image_wf, is_u64, two64. cbn. lia.
  - unfold image_wf, is_u64, two64. cbn. lia.
  - repeat split.
Defined.

Lemma image_reencoding_witness :
  ImageByteMap.toProtobuf
    (ImageByteMap.fromProtobuf inverted_message image_100_200)
  = inverted_message.
Proof.
  apply (image_reencoding inverted_message image_100_200).
  - unfold message_wf, is_u64, two64. cbn. lia.
  - vm_compute. reflexivity.
Defined.

Lemma roundtrip_keeps_accepted_accesses_witness :
  ImageByteMap.in_bounds
    (ImageByteMap.fromProtobuf (ImageByteMap.toProtobuf image_100_200)
       image_10_20) 150 8
  = ImageByteMap.in_bounds image_100_200 150 8.
Proof.
  apply (roundtrip_keeps_accepted_accesses image_100_200 image_10_20).
  unfold image_wf, is_u64, two64. cbn. lia.
Defined.

Lemma data_object_reencoding_witness :
  DataObject.toProtobuf
    (DataObject.fromProtobuf (DataObject.mkMessage sample_uuid 4096 16)
       blank_data_object)
  = DataObject.mkMessage sample_uuid 4096 16.
Proof.
  apply (data_object_reencoding (DataObject.mkMessage sample_uuid 4096 16)
           blank_data_object).
  unfold is_u64, two64. cbn. lia.
Defined.

Lemma data_object_encoding_injective_witness :
  DataObject.fromProtobuf (DataObject.toProtobuf sample_data_object)
    blank_data_object
  = sample_data_object.
Proof.
  apply (data_object_encoding_injective
           (DataObject.fromProtobuf (DataObject.toProtobuf sample_data_object)
              blank_data_object)
           sample_data_object).
  - unfold is_u64, two64. vm_compute. split; [discriminate|reflexivity].
  - unfold is_u64, two64. cbn. lia.
  - vm_compute. reflexivity.
Defined.

(** ** More on the range check *)

Section RangeCheckMore.

Context {BM Wire : Type} `{Engine : ByteStore BM Wire}.
Implicit Types (img : ImageByteMap.t BM).

(** X15. Inside an accepted run everything is accepted: if an access of
    [N] bytes at [A] passes the check and does not pass the end of the
    address space, every access of at least one byte that lies within
    it, [N'] bytes at [A + k] with [k + N' <= N], passes the check. *)
Theorem accepted_run_accepts_subruns img (A N k N' : Z) :
  is_u64 A -> A + N - 1 < two64 ->
  0 <= k -> 1 <= N' -> k + N' <= N ->
  ImageByteMap.in_bounds img A N = true ->
  ImageByteMap.in_bounds img (Addr.add A k) N' = true.
Proof.
  intros HA Hend Hk HN' Hsub Hin.
  assert (Hak : Addr.add A k = A + k).
  { apply wrap64_small. unfold is_u64 in *. lia. }
  rewrite Hak.
  apply in_bounds_contained in Hin; [|unfold is_u64 in *; lia].
  apply in_bounds_contained; [unfold is_u64 in *; lia|].
  unfold spec_contained in *. lia.
Qed.

(** X16. An image whose range is inverted, as [fromProtobuf] can leave
    it, is closed: every read and every span write of at least one byte
    that does not pass the end of the address space raises [OutOfRange]
    and leaves the image as it was. *)
Theorem inverted_range_rejects img (A : Addr.t) (Data : list Byte.byte) :
  ~ range_ordered img ->
  is_u64 A -> Data <> [] -> A + Z.of_nat (length Data) - 1 < two64 ->
  ImageByteMap.setData A Data img = (inl OutOfRange, img)
  /\ ImageByteMap.getData A (Z.of_nat (length Data)) img
     = (inl OutOfRange, img).
Proof.
  intros Hinv HA Hne Hend.
  assert (1 <= Z.of_nat (length Data)) as Hlen.
  { destruct Data; [congruence|]. cbn [length]. lia. }
  assert (ImageByteMap.in_bounds img A (Z.of_nat (length Data)) = false)
    as Hout.
  { apply not_true_is_false. intros Hin.
    apply in_bounds_contained in Hin; [|unfold is_u64 in *; lia].
    unfold spec_contained, range_ordered in *. lia. }
  split; [apply setData_rejected | apply getData_rejected]; exact Hout.
Qed.

End RangeCheckMore.

Lemma accepted_run_accepts_subruns_witness :
  ImageByteMap.in_bounds image_100_200 (Addr.add 150 4) 6 = true.
Proof.
  apply (accepted_run_accepts_subruns image_100_200 150 20 4 6);
    try (unfold is_u64, two64; lia).
  vm_compute. reflexivity.
Defined.

Lemma inverted_range_rejects_witness :
  let img := ImageByteMap.fromProtobuf inverted_message image_100_200 in
  ImageByteMap.setData 4 [Byte.x01] img = (inl OutOfRange, img)
  /\ ImageByteMap.getData 4 1 img = (inl OutOfRange, img).
Proof.
  intros img.
  apply (inverted_range_rejects img 4 [Byte.x01]).
  - unfold range_ordered. vm_compute. intros H. apply H. reflexivity.
  - unfold is_u64, two64. lia.
  - discriminate.
  - unfold two64. cbn. lia.
Defined.
